(** * KMP substring search (src/kmp.js): a shallow embedding and its properties

    The class [KMP] of src/kmp.js has three static methods:
    - [makePartialMatchTable keywordChars], the failure table of a keyword;
    - [find testStr keywordStr], the scanner;
    - [stringToChars str], which splits a string with [for (let c of str)].

    Both loops are [while] loops whose termination rests on an invariant of
    the table, so each is embedded as a step function on the loop state and
    iterated by [run] under a step budget.  Lemmas [table_loop_total],
    [scan_loop_total] and [scan_loop_nil] show that the budgets used are
    never exhausted, and [run_more_fuel] that a larger budget changes
    nothing. *)

From Stdlib Require Import ZArith NArith Lia String Ascii.
From stdpp Require Import base list.

Local Open Scope nat_scope.

(** ** Outcomes and loops *)

(** What a loop or a method delivers.  [Undefined] stands for the point where
    the JavaScript program would read or write the table past its end (the
    read yields [undefined], the write makes the array grow with holes): from
    there on the cursors are no longer array indices and this model stops. *)
Inductive outcome (A : Type) : Type :=
| Done (a : A)
| Undefined
| OutOfFuel.
Arguments Done {A} a.
Arguments Undefined {A}.
Arguments OutOfFuel {A}.

Definition outcome_bind {A B : Type} (o : outcome A) (k : A -> outcome B) : outcome B :=
  match o with
  | Done a => k a
  | Undefined => Undefined
  | OutOfFuel => OutOfFuel
  end.

Notation "'let!' x ':=' o 'in' k" := (outcome_bind o (fun x => k))
  (at level 10, x name, o at level 100, k at level 200).

(** One turn of a [while] loop: go round again, leave the loop (its condition
    is false, or a [break] was executed), or hit an access past the end. *)
Inductive transition (St : Type) : Type :=
| Next (s : St)
| Exit (s : St)
| Stuck.
Arguments Next {St} s.
Arguments Exit {St} s.
Arguments Stuck {St}.

Fixpoint run {St : Type} (step : St -> transition St) (fuel : nat) (s : St) : outcome St :=
  match fuel with
  | O => OutOfFuel
  | S fuel' =>
      match step s with
      | Next s' => run step fuel' s'
      | Exit s' => Done s'
      | Stuck => Undefined
      end
  end.

(** The states a loop passes through at its head, starting from [init]. *)
Inductive reach {St : Type} (step : St -> transition St) (init : St) : St -> Prop :=
| reach_init : reach step init init
| reach_next s s' : reach step init s -> step s = Next s' -> reach step init s'.

(** ** The two algorithms, over any unit type with decidable equality *)

Section Core.
Context {T : Type} `{EqDecision T}.

(** *** makePartialMatchTable (kmp.js lines 41-114) *)

(** [let i = 1; let j = 0;] and the array [table]. *)
Record tstate : Type := TState { ti : nat; tj : nat; ttable : list nat }.

(** [table[i] = v]: the store of a slot that exists. *)
Definition store (table : list nat) (i v : nat) : option (list nat) :=
  if i <? length table then Some (<[i:=v]> table) else None.

(** The body of [while (i < length) { ... }].  [keywordChars[i]] is
    [keywordChars !! i]: an element or, past the end, [undefined] ([None]),
    and [!==] compares the two values. *)
Definition table_step (keywordChars : list T) (st : tstate) : transition tstate :=
  let i := ti st in
  let j := tj st in
  let table := ttable st in
  if i <? length keywordChars then
    if bool_decide (keywordChars !! i <> keywordChars !! j) then
      if j =? 0 then
        match store table i 0 with
        | Some table' => Next (TState (i + 1) j table')
        | None => Stuck
        end
      else
        match table !! (j - 1) with
        | Some j' => Next (TState i j' table)
        | None => Stuck
        end
    else
      match store table i (j + 1) with
      | Some table' => Next (TState (i + 1) (j + 1) table')
      | None => Stuck
      end
  else Exit st.

(** [new Array(length)] filled with 0, [i = 1], [j = 0]. *)
Definition table_init (keywordChars : list T) : tstate :=
  TState 1 0 (replicate (length keywordChars) 0).

(** Step budget of the table loop. *)
Definition table_fuel (keywordChars : list T) : nat := 2 * length keywordChars + 1.

Definition makePartialMatchTable (keywordChars : list T) : outcome (list nat) :=
  let! st := run (table_step keywordChars) (table_fuel keywordChars)
                (table_init keywordChars) in
  Done (ttable st).

(** *** find, after the conversion of its two arguments (kmp.js lines 118-154) *)

(** [let i = 0; let j = 0;] *)
Record sstate : Type := SState { si : nat; sj : nat }.

(** The body of [while (i < testLength) { ... }]; the [break] is an [Exit]
    with the cursors already advanced. *)
Definition scan_step (testChars keywordChars : list T) (table : list nat)
    (st : sstate) : transition sstate :=
  let i := si st in
  let j := sj st in
  if i <? length testChars then
    if bool_decide (testChars !! i = keywordChars !! j) then
      if j + 1 =? length keywordChars
      then Exit (SState (i + 1) (j + 1))
      else Next (SState (i + 1) (j + 1))
    else
      if 0 <? j then
        match table !! (j - 1) with
        | Some j' => Next (SState i j')
        | None => Stuck
        end
      else Next (SState (i + 1) j)
  else Exit st.

Definition scan_init : sstate := SState 0 0.

(** Step budget of the scan loop. *)
Definition scan_fuel (testChars : list T) : nat := 2 * length testChars + 1.

(** [return (i === testLength) ? -1 : (i - keywordLength);] *)
Definition scan_result (testLength keywordLength : nat) (st : sstate) : Z :=
  if si st =? testLength then (-1)%Z
  else (Z.of_nat (si st) - Z.of_nat keywordLength)%Z.

Definition find_chars (testChars keywordChars : list T) : outcome Z :=
  let testLength := length testChars in
  let keywordLength := length keywordChars in
  let! table := makePartialMatchTable keywordChars in
  let! st := run (scan_step testChars keywordChars table) (scan_fuel testChars)
                scan_init in
  Done (scan_result testLength keywordLength st).

(** *** Reference definitions, following the words of the specification *)

(** [b] is the length of a proper prefix of [l] that is also a suffix of [l]. *)
Definition is_border (l : list T) (b : nat) : Prop :=
  b < length l /\ take b l = drop (length l - b) l.

(** Brute force: try the candidate lengths from the longest down. *)
Fixpoint lps_from (l : list T) (b : nat) : nat :=
  match b with
  | O => 0
  | S b' => if bool_decide (take b l = drop (length l - b) l) then b else lps_from l b'
  end.

(** Length of the longest proper prefix of [l] that is also a proper suffix. *)
Definition lps_brute (l : list T) : nat := lps_from l (length l - 1).

(** The keyword occurs in the text at position [s]. *)
Definition occurs_at (testChars keywordChars : list T) (s : nat) : Prop :=
  take (length keywordChars) (drop s testChars) = keywordChars.

(** Brute-force forward search: the first position where the keyword occurs,
    or -1. *)
Fixpoint naive_from (testChars keywordChars : list T) (s : nat) : Z :=
  if bool_decide (take (length keywordChars) testChars = keywordChars) then Z.of_nat s
  else match testChars with
       | [] => (-1)%Z
       | _ :: rest => naive_from rest keywordChars (S s)
       end.

Definition naive_find (testChars keywordChars : list T) : Z :=
  naive_from testChars keywordChars 0.

End Core.

(** ** Strings *)

(** A JavaScript string is a sequence of 16-bit code units. *)
Abbreviation jsstring := (list N).

Definition is_high_surrogate (u : N) : bool := ((0xD800 <=? u) && (u <=? 0xDBFF))%N.
Definition is_low_surrogate (u : N) : bool := ((0xDC00 <=? u) && (u <=? 0xDFFF))%N.

(** [stringToChars] (kmp.js lines 157-163): [for (let c of str) chars.push(c)].
    The string iterator yields one string per code point: a high surrogate
    followed by a low surrogate is one element of two code units, any other
    code unit is an element of its own. *)
Fixpoint stringToChars (str : jsstring) : list jsstring :=
  match str with
  | [] => []
  | u :: rest =>
      if is_high_surrogate u then
        match rest with
        | v :: rest' =>
            if is_low_surrogate v then [u; v] :: stringToChars rest'
            else [u] :: stringToChars rest
        | [] => [[u]]
        end
      else [u] :: stringToChars rest
  end.

(** [find] (kmp.js lines 116-155). *)
Definition find (testStr keywordStr : jsstring) : outcome Z :=
  find_chars (stringToChars testStr) (stringToChars keywordStr).

(** The code units of a string literal of ASCII characters. *)
Fixpoint js (s : string) : jsstring :=
  match s with
  | EmptyString => []
  | String c s' => N_of_ascii c :: js s'
  end.

(** UTF-16: the code units of one code point, and of a sequence of them. *)
Definition utf16_char (c : N) : jsstring :=
  if (c <? 0x10000)%N then [c]
  else [(0xD800 + (c - 0x10000) / 0x400)%N; (0xDC00 + (c - 0x10000) mod 0x400)%N].

Definition utf16 (cps : list N) : jsstring := concat (map utf16_char cps).

(** A Unicode scalar value: a code point that is not a surrogate. *)
Definition scalar_value (c : N) : Prop :=
  (c < 0x110000)%N /\ ~ (0xD800 <= c <= 0xDFFF)%N.

(** ** Invariants and variants of the two loops *)

Section Invariants.
Context {T : Type} `{EqDecision T}.
Implicit Types (P text : list T) (table : list nat) (i b k m s : nat).

(** [b] is a border of the prefix of length [i] of [P], by positions. *)
Definition pre_border P i b : Prop :=
  b < i /\ forall m, m < b -> P !! m = P !! (i - b + m).

(** [v] is the longest border of the prefix of length [i]. *)
Definition lps_spec P i v : Prop :=
  pre_border P i v /\ forall b, pre_border P i b -> b <= v.

(** Loop invariant of [makePartialMatchTable] on a non-empty keyword: the
    slots below [i] hold their final values, [j] is a border of the prefix
    of length [i], and no border of the next prefix is longer than [j + 1]. *)
Record table_inv P (st : tstate) : Prop := TableInv {
  tinv_i : 1 <= ti st <= length P;
  tinv_len : length (ttable st) = length P;
  tinv_j : tj st < ti st;
  tinv_tab : forall k, k < ti st ->
    exists v, ttable st !! k = Some v /\ lps_spec P (S k) v;
  tinv_pre : forall m, m < tj st -> P !! m = P !! (ti st - tj st + m);
  tinv_max : forall b, pre_border P (S (ti st)) (S b) -> b <= tj st
}.

(** Variant of the table loop. *)
Definition table_measure P (st : tstate) : nat := 2 * (length P - ti st) + tj st.

(** What the scanner needs of the table. *)
Definition table_ok P table : Prop :=
  length table = length P /\
  forall k, k < length P -> exists v, table !! k = Some v /\ lps_spec P (S k) v.

(** [occurs_at] by positions. *)
Definition match_at text P s : Prop :=
  forall k, k < length P -> text !! (s + k) = P !! k.

(** Loop invariant of the scanner on a non-empty keyword: the [j] units before
    [i] are the first [j] units of the keyword, and the keyword occurs at no
    position before [i - j]. *)
Record scan_inv text P (st : sstate) : Prop := ScanInv {
  sinv_i : si st <= length text;
  sinv_j : sj st <= si st;
  sinv_jm : sj st < length P;
  sinv_pre : forall k, k < sj st -> text !! (si st - sj st + k) = P !! k;
  sinv_none : forall s, s < si st - sj st -> ~ match_at text P s
}.

(** The two ways out of the scan loop: the text is used up with no full
    match, or the [break] after a full match. *)
Definition scan_post text P (st : sstate) : Prop :=
  (si st = length text /\ forall s, ~ match_at text P s) \/
  (sj st = length P /\ sj st <= si st <= length text /\
   match_at text P (si st - length P) /\
   forall s, s < si st - length P -> ~ match_at text P s).

(** Variant of the scan loop. *)
Definition scan_measure text (st : sstate) : nat := 2 * (length text - si st) + sj st.

End Invariants.

(** ** Loops: invariants, variants and budgets *)

Section LoopFacts.
Context {St : Type} (step : St -> transition St).
Context (Inv Post : St -> Prop) (mu : St -> nat).
Hypothesis step_ok : forall s, Inv s ->
  match step s with
  | Next s' => Inv s' /\ mu s' < mu s
  | Exit s' => Post s'
  | Stuck => False
  end.

(** A loop with an invariant and a decreasing variant leaves through an
    [Exit] as soon as the budget exceeds the variant. *)
Lemma run_total fuel s :
  Inv s -> mu s < fuel -> exists s', run step fuel s = Done s' /\ Post s'.
Proof.
  revert s. induction fuel as [|fuel IH]; intros s Hinv Hmu; [lia|].
  simpl. specialize (step_ok s Hinv). destruct (step s) as [s'|s'|].
  - destruct step_ok as [Hinv' Hlt]. apply IH; [done | lia].
  - by exists s'.
  - done.
Qed.

Lemma reach_inv init s : Inv init -> reach step init s -> Inv s.
Proof.
  intros Hinit Hreach. induction Hreach as [|s s' _ IH Hstep]; [done|].
  specialize (step_ok s IH). rewrite Hstep in step_ok. tauto.
Qed.

End LoopFacts.

(** A result does not depend on the budget that was enough to reach it. *)
Lemma run_more_fuel {St : Type} (step : St -> transition St) fuel fuel' s s' :
  run step fuel s = Done s' -> fuel <= fuel' -> run step fuel' s = Done s'.
Proof.
  revert fuel' s. induction fuel as [|fuel IH]; intros fuel' s Hrun Hle; [done|].
  destruct fuel' as [|fuel']; [lia|]. simpl in *.
  destruct (step s); try done. apply IH; [done | lia].
Qed.

(** ** Borders of the prefixes of a keyword *)

Section Borders.
Context {T : Type} `{EqDecision T}.
Implicit Types (P l : list T) (i b k m : nat).

Lemma overlap_lookup P i b :
  b <= i -> i <= length P ->
  take b (take i P) = drop (i - b) (take i P) <->
  forall m, m < b -> P !! m = P !! (i - b + m).
Proof.
  intros Hb Hi. split.
  - intros Heq m Hm.
    assert (take b (take i P) !! m = drop (i - b) (take i P) !! m) as Hl
      by (by rewrite Heq).
    rewrite lookup_drop in Hl.
    by rewrite !lookup_take_lt in Hl by lia.
  - intros Hall. apply list_eq. intros m. rewrite lookup_drop.
    destruct (decide (m < b)) as [Hm|Hm].
    + rewrite !lookup_take_lt by lia. by apply Hall.
    + by rewrite !lookup_take_ge by lia.
Qed.

Lemma is_border_take P i b :
  i <= length P -> is_border (take i P) b <-> pre_border P i b.
Proof.
  intros Hi. unfold is_border, pre_border. rewrite length_take_le by done.
  split; intros [Hb Hov]; (split; [done|]); apply overlap_lookup; done || lia.
Qed.

Lemma lps_from_spec l k :
  k <= length l ->
  lps_from l k <= k /\
  take (lps_from l k) l = drop (length l - lps_from l k) l /\
  forall b, b <= k -> take b l = drop (length l - b) l -> b <= lps_from l k.
Proof.
  induction k as [|k IH]; intros Hk.
  - simpl. rewrite Nat.sub_0_r, drop_all. repeat split; [lia|]. intros; lia.
  - simpl. case_bool_decide as Hov.
    + repeat split; [lia | done |]. intros; lia.
    + destruct IH as (Hle & Heq & Hmax); [lia|]. repeat split; [lia | done |].
      intros b Hb Hbov. destruct (decide (b = S k)) as [->|]; [done|].
      apply Nat.le_trans with (lps_from l k); [|lia]. apply Hmax; [lia | done].
Qed.

(** The brute-force computation yields the longest border. *)
Lemma lps_brute_spec l :
  l <> [] ->
  is_border l (lps_brute l) /\ forall b, is_border l b -> b <= lps_brute l.
Proof.
  intros Hl. assert (0 < length l) by (destruct l; simpl; [done | lia]).
  unfold lps_brute, is_border.
  destruct (lps_from_spec l (length l - 1)) as (Hle & Heq & Hmax); [lia|].
  repeat split; [lia | done |]. intros b [Hb Hov]. apply Hmax; [lia | done].
Qed.

Lemma lps_brute_prefix P i :
  0 < i -> i <= length P -> lps_spec P i (lps_brute (take i P)).
Proof.
  intros H0 Hi.
  destruct (lps_brute_spec (take i P)) as [Hb Hmax].
  { intros Hnil. apply (f_equal length) in Hnil.
    rewrite length_take_le in Hnil by done. simpl in Hnil. lia. }
  split.
  - by apply is_border_take.
  - intros b Hbb. apply Hmax. by apply is_border_take.
Qed.

Lemma lps_spec_unique P i v v' : lps_spec P i v -> lps_spec P i v' -> v = v'.
Proof.
  intros [Hb Hmax] [Hb' Hmax']. apply Nat.le_antisymm; auto.
Qed.

Lemma pre_border_shrink P i b : pre_border P (S i) (S b) -> pre_border P i b.
Proof.
  intros [Hb Hov]. split; [lia|]. intros m Hm.
  rewrite Hov by lia. f_equal; lia.
Qed.

(** The last unit of a non-empty border equals the last unit of the prefix. *)
Lemma pre_border_last P i b : pre_border P (S i) (S b) -> P !! b = P !! i.
Proof.
  intros [Hb Hov]. rewrite Hov by lia. f_equal; lia.
Qed.

End Borders.

(** ** The table builder *)

Section TableFacts.
Context {T : Type} `{EqDecision T}.
Implicit Types (P : list T) (st : tstate).

Lemma table_inv_init P : P <> [] -> table_inv P (table_init P).
Proof.
  intros HP. assert (0 < length P) by (destruct P; simpl; [done | lia]).
  split; simpl.
  - lia.
  - apply length_replicate.
  - lia.
  - intros k Hk. exists 0. assert (k = 0) as -> by lia. split.
    + apply lookup_replicate_2. lia.
    + split; [split; [lia | intros; lia]|]. intros b [Hb _]. lia.
  - intros; lia.
  - intros b [Hb _]. lia.
Qed.

Lemma store_Some (table : list nat) i v :
  i < length table -> store table i v = Some (<[i:=v]> table).
Proof.
  intros Hi. unfold store. by destruct (Nat.ltb_spec i (length table)); [|lia].
Qed.

(** Recording the longest border of the prefix ending at [i] keeps the part
    of the invariant that concerns the table. *)
Lemma table_inv_record P st v j' :
  table_inv P st -> ti st < length P ->
  lps_spec P (S (ti st)) v -> pre_border P (ti st + 1) j' -> v <= j' ->
  table_inv P (TState (ti st + 1) j' (<[ti st:=v]> (ttable st))).
Proof.
  intros [Hi Hlen Hj Htab Hpre Hmax] Hlt Hv [Hj' Hpre'] Hle.
  split; simpl.
  - lia.
  - by rewrite length_insert.
  - done.
  - intros k Hk. destruct (decide (k = ti st)) as [->|Hne].
    + exists v. split; [|done]. apply list_lookup_insert_eq. lia.
    + rewrite list_lookup_insert_ne by done. apply Htab. lia.
  - intros m Hm. rewrite Hpre' by done. f_equal; lia.
  - intros b Hb. apply Nat.le_trans with v; [|done].
    replace (ti st + 1) with (S (ti st)) in Hb by lia.
    apply Hv. by apply pre_border_shrink.
Qed.

(** One turn of the table loop: the invariant is kept, the variant goes
    down, a turn that keeps [i] lowers [j], no access is past the end, and
    the loop is left only with [i] at the end of the keyword. *)
Lemma table_step_ok P st :
  table_inv P st ->
  match table_step P st with
  | Next st' =>
      table_inv P st' /\ table_measure P st' < table_measure P st /\
      (ti st' = ti st -> tj st' < tj st)
  | Exit st' => st' = st /\ ti st = length P
  | Stuck => False
  end.
Proof.
  intros Hinv. pose proof Hinv as [Hi Hlen Hj Htab Hpre Hmax].
  unfold table_step, table_measure.
  destruct (Nat.ltb_spec (ti st) (length P)) as [Hlt|Hge]; [|split; [done | lia]].
  case_bool_decide as Hcmp.
  - destruct (Nat.eqb_spec (tj st) 0) as [Hj0|Hj0].
    + (* no border can be extended: table[i] = 0 *)
      rewrite store_Some by lia. simpl. split; [|lia].
      rewrite Hj0. apply table_inv_record; [done | done | | | lia].
      * split; [split; [lia | intros; lia]|].
        intros [|b] Hb; [lia|]. pose proof (Hmax b Hb) as Hb0.
        assert (b = 0) as -> by lia.
        apply pre_border_last in Hb. rewrite Hj0 in Hcmp. by destruct Hcmp.
      * split; [lia | intros; lia].
    + (* fall back to the longest border of the border *)
      destruct (Htab (tj st - 1)) as (v & Hv & [[Hvj Hvpre] Hvmax]); [lia|].
      replace (S (tj st - 1)) with (tj st) in * by lia.
      rewrite Hv. simpl. split; [|lia]. split; simpl; try done.
      * lia.
      * intros m Hm. rewrite Hvpre by done. rewrite Hpre by lia. f_equal; lia.
      * intros b Hb. pose proof (Hmax b Hb) as Hbj.
        assert (b <> tj st) as Hne.
        { intros ->. apply pre_border_last in Hb. by destruct Hcmp. }
        apply Hvmax. split; [lia|]. intros m Hm.
        destruct Hb as [_ Hb]. rewrite Hb by lia.
        rewrite (Hpre (tj st - b + m)) by lia. f_equal; lia.
  - (* the border is extended: table[i] = j + 1 *)
    assert (pre_border P (ti st + 1) (tj st + 1)) as Hext.
    { split; [lia|]. intros m Hm. destruct (decide (m = tj st)) as [->|Hne].
      - rewrite <- Hcmp. f_equal; lia.
      - rewrite Hpre by lia. f_equal; lia. }
    rewrite store_Some by lia. simpl. split; [|lia].
    apply table_inv_record; [done | done | | done | lia].
    split.
    + by replace (S (ti st)) with (ti st + 1) by lia.
    + intros [|b] Hb; [lia|]. pose proof (Hmax b Hb). lia.
Qed.

Lemma table_step_run P st :
  table_inv P st ->
  match table_step P st with
  | Next st' => table_inv P st' /\ table_measure P st' < table_measure P st
  | Exit st' => table_inv P st' /\ ti st' = length P
  | Stuck => False
  end.
Proof.
  intros Hinv. pose proof (table_step_ok P st Hinv) as Hstep.
  destruct (table_step P st); [tauto | | done].
  destruct Hstep as [-> ?]. done.
Qed.

(** The loop of a non-empty keyword ends within any budget of at least
    [table_fuel], in a state that satisfies the invariant with [i] at the
    end. *)
Lemma table_loop_total P fuel :
  P <> [] -> table_fuel P <= fuel ->
  exists st, run (table_step P) fuel (table_init P) = Done st /\
             table_inv P st /\ ti st = length P.
Proof.
  intros HP Hfuel.
  apply (run_total (table_step P) (table_inv P)
           (fun st => table_inv P st /\ ti st = length P) (table_measure P)).
  - apply table_step_run.
  - by apply table_inv_init.
  - unfold table_fuel in Hfuel. unfold table_measure, table_init. simpl. lia.
Qed.

(** The table of a non-empty keyword, slot by slot. *)
Lemma makePartialMatchTable_spec P :
  P <> [] ->
  exists table, makePartialMatchTable P = Done table /\
    length table = length P /\
    forall k, k < length P -> exists v, table !! k = Some v /\ lps_spec P (S k) v.
Proof.
  intros HP.
  destruct (table_loop_total P (table_fuel P) HP) as (st & Hrun & Hinv & Hi); [done|].
  exists (ttable st). unfold makePartialMatchTable. rewrite Hrun. simpl.
  destruct Hinv as [_ Hlen _ Htab _ _].
  split; [done|]. split; [done|]. intros k Hk. apply Htab. lia.
Qed.

Lemma makePartialMatchTable_nil : makePartialMatchTable (@nil T) = Done [].
Proof. reflexivity. Qed.

(** The states at the head of the table loop: the loop of the empty keyword
    never leaves its first state, the others satisfy the invariant. *)
Lemma table_reach_inv P st :
  reach (table_step P) (table_init P) st ->
  (P = [] /\ st = table_init P) \/ table_inv P st.
Proof.
  intros Hreach. destruct (decide (P = [])) as [->|HP].
  - left. split; [done|].
    induction Hreach as [|st st' _ IH Hstep]; [done|]. by rewrite IH in Hstep.
  - right. revert Hreach.
    apply (reach_inv _ _ (fun st => table_inv P st /\ ti st = length P)
             (table_measure P)).
    + apply table_step_run.
    + by apply table_inv_init.
Qed.

End TableFacts.

(** ** The scanner *)

Section ScanFacts.
Context {T : Type} `{EqDecision T}.
Implicit Types (text P : list T) (table : list nat) (st : sstate).

Lemma occurs_at_lookup text P s : occurs_at text P s <-> match_at text P s.
Proof.
  unfold occurs_at, match_at. split.
  - intros Heq k Hk. apply (f_equal (fun l => l !! k)) in Heq.
    by rewrite lookup_take_lt, lookup_drop in Heq.
  - intros Hall. apply list_eq. intros k.
    destruct (decide (k < length P)) as [Hk|Hk].
    + rewrite lookup_take_lt, lookup_drop by done. by apply Hall.
    + rewrite lookup_take_ge by lia. symmetry. apply lookup_ge_None. lia.
Qed.

Lemma match_at_fits text P s : P <> [] -> match_at text P s -> s + length P <= length text.
Proof.
  intros HP Hm. assert (0 < length P) by (destruct P; simpl; [done | lia]).
  specialize (Hm (length P - 1) ltac:(lia)).
  destruct (lookup_lt_is_Some_2 P (length P - 1)) as [x Hx]; [lia|].
  rewrite Hx in Hm. apply lookup_lt_Some in Hm. lia.
Qed.

Lemma scan_inv_init text P : P <> [] -> scan_inv text P scan_init.
Proof.
  intros HP. assert (0 < length P) by (destruct P; simpl; [done | lia]).
  split; simpl; intros; lia.
Qed.

Lemma scan_step_ok text P table st :
  table_ok P table -> scan_inv text P st ->
  match scan_step text P table st with
  | Next st' => scan_inv text P st' /\ scan_measure text st' < scan_measure text st
  | Exit st' => scan_post text P st'
  | Stuck => False
  end.
Proof.
  intros [Hlen Htab] [Hi Hj Hjm Hpre Hnone].
  unfold scan_step, scan_measure.
  destruct (Nat.ltb_spec (si st) (length text)) as [Hlt|Hge].
  - case_bool_decide as Hcmp.
    + (* the units agree *)
      assert (forall k, k < sj st + 1 ->
                text !! (si st + 1 - (sj st + 1) + k) = P !! k) as Hext.
      { intros k Hk. destruct (decide (k = sj st)) as [->|Hne].
        - rewrite <- Hcmp. f_equal; lia.
        - rewrite <- Hpre by lia. f_equal; lia. }
      destruct (Nat.eqb_spec (sj st + 1) (length P)) as [Hfull|Hpart].
      * right. simpl. split; [done|]. split; [lia|]. rewrite <- Hfull. split.
        -- intros k Hk. apply Hext. lia.
        -- intros s Hs. apply Hnone. lia.
      * simpl. split; [|lia]. split; simpl; try lia; [done|].
        intros s Hs. apply Hnone. lia.
    + destruct (Nat.ltb_spec 0 (sj st)) as [Hpos|Hzero].
      * (* fall back to the longest border of the matched part *)
        destruct (Htab (sj st - 1)) as (v & Hv & [[Hvj Hvpre] Hvmax]); [lia|].
        replace (S (sj st - 1)) with (sj st) in * by lia.
        rewrite Hv. simpl. split; [|lia]. split; simpl; try lia.
        -- intros k Hk. rewrite (Hvpre k) by done. rewrite <- Hpre by lia.
           f_equal; lia.
        -- intros s Hs Hm.
           destruct (decide (s < si st - sj st)) as [Hold|Hnew];
             [by apply (Hnone s)|].
           destruct (decide (s = si st - sj st)) as [->|Hne].
           { apply Hcmp. rewrite <- (Hm (sj st)) by done. f_equal; lia. }
           assert (si st - s <= v); [|lia].
           apply Hvmax. split; [lia|]. intros k Hk.
           rewrite <- (Hm k) by lia.
           rewrite <- (Hpre (sj st - (si st - s) + k)) by lia. f_equal; lia.
      * (* nothing matched so far: move on in the text *)
        assert (sj st = 0) as Hj0 by lia.
        simpl. split; [|lia]. split; simpl; try lia.
        intros s Hs Hm.
        destruct (decide (s < si st - sj st)) as [Hold|Hnew];
          [by apply (Hnone s)|].
        assert (s = si st) as -> by lia.
        apply Hcmp. rewrite Hj0. rewrite <- (Hm 0) by lia. f_equal; lia.
  - left. split; [lia|]. intros s Hm.
    assert (P <> []) as HP by (intros ->; simpl in Hjm; lia).
    pose proof (match_at_fits text P s HP Hm).
    apply (Hnone s); [lia | done].
Qed.

(** The scan loop of a non-empty keyword ends within any budget of at least
    [scan_fuel]. *)
Lemma scan_loop_total text P table fuel :
  P <> [] -> table_ok P table -> scan_fuel text <= fuel ->
  exists st, run (scan_step text P table) fuel scan_init = Done st /\
             scan_post text P st.
Proof.
  intros HP Htab Hfuel.
  apply (run_total (scan_step text P table) (scan_inv text P)
           (scan_post text P) (scan_measure text)).
  - intros st. by apply scan_step_ok.
  - by apply scan_inv_init.
  - unfold scan_fuel in Hfuel. unfold scan_measure, scan_init. simpl. lia.
Qed.

(** What [find_chars] returns for a non-empty keyword: the first position
    where the keyword occurs, provided that occurrence ends before the last
    unit of the text; otherwise -1. *)
Lemma find_chars_spec text P :
  P <> [] ->
  exists r, find_chars text P = Done r /\
    ((r = (-1)%Z /\
      forall s, s + length P < length text -> ~ occurs_at text P s) \/
     (exists s, r = Z.of_nat s /\ s + length P < length text /\
        occurs_at text P s /\ forall s', s' < s -> ~ occurs_at text P s')).
Proof.
  intros HP.
  destruct (makePartialMatchTable_spec P HP) as (table & Htable & Hok).
  destruct (scan_loop_total text P table (scan_fuel text) HP Hok) as (st & Hrun & Hpost);
    [done|].
  unfold find_chars. rewrite Htable. simpl. rewrite Hrun. simpl.
  eexists. split; [done|]. unfold scan_result.
  destruct Hpost as [[Hend Hnone]|(Hfull & Hij & Hm & Hfirst)].
  - rewrite Hend, Nat.eqb_refl. left. split; [done|].
    intros s _ Hocc. apply (Hnone s). by apply occurs_at_lookup.
  - destruct (Nat.eqb_spec (si st) (length text)) as [Hend|Hmid].
    + left. split; [done|]. intros s Hs Hocc. apply (Hfirst s); [lia|].
      by apply occurs_at_lookup.
    + right. exists (si st - length P). split; [lia|]. split; [lia|]. split.
      * by apply occurs_at_lookup.
      * intros s' Hs' Hocc. apply (Hfirst s'); [done|]. by apply occurs_at_lookup.
Qed.

(** With the empty keyword every comparison fails and [i] runs to the end. *)
Lemma scan_loop_nil text :
  exists st, run (scan_step text [] []) (scan_fuel text) scan_init = Done st /\
             si st = length text /\ sj st = 0.
Proof.
  apply (run_total _ (fun st => sj st = 0 /\ si st <= length text)
           (fun st => si st = length text /\ sj st = 0) (scan_measure text)).
  - intros st [Hj Hi]. unfold scan_step, scan_measure.
    destruct (Nat.ltb_spec (si st) (length text)) as [Hlt|Hge]; [|lia].
    rewrite Hj. simpl.
    destruct (lookup_lt_is_Some_2 text (si st) Hlt) as [x Hx]. rewrite Hx.
    rewrite bool_decide_eq_false_2 by done. simpl. lia.
  - simpl. lia.
  - unfold scan_measure, scan_fuel. simpl. lia.
Qed.

Lemma find_chars_nil text : find_chars text [] = Done (-1)%Z.
Proof.
  unfold find_chars. rewrite makePartialMatchTable_nil. simpl.
  destruct (scan_loop_nil text) as (st & Hrun & Hend & _).
  rewrite Hrun. simpl. unfold scan_result. by rewrite Hend, Nat.eqb_refl.
Qed.

(** The states at the head of the scan loop satisfy the invariant. *)
Lemma scan_reach_inv text P table st :
  P <> [] -> table_ok P table ->
  reach (scan_step text P table) scan_init st -> scan_inv text P st.
Proof.
  intros HP Hok. apply (reach_inv _ _ (scan_post text P) (scan_measure text)).
  - intros st'. by apply scan_step_ok.
  - by apply scan_inv_init.
Qed.

End ScanFacts.

(** ** Renaming the units *)

(** Neither algorithm looks inside a unit: it only compares units.  So an
    injective renaming of the units changes neither the table nor the
    positions found. *)
Section Renaming.
Context {T U : Type} `{EqDecision T} `{EqDecision U}.
Context (f : T -> U) `{!Inj (=) (=) f}.

Lemma run_ext {St : Type} (step step' : St -> transition St) fuel s :
  (forall s, step s = step' s) -> run step fuel s = run step' fuel s.
Proof.
  intros Hext. revert s. induction fuel as [|fuel IH]; intros s; [done|].
  simpl. rewrite <- Hext. destruct (step s); auto.
Qed.

Lemma lookup_fmap_inj (l l' : list T) i j :
  (f <$> l) !! i = (f <$> l') !! j <-> l !! i = l' !! j.
Proof.
  rewrite !list_lookup_fmap. split; [|by intros ->].
  destruct (l !! i), (l' !! j); simpl; intros Heq; try done.
  f_equal. apply (inj f). congruence.
Qed.

Lemma table_step_fmap (P : list T) st : table_step (f <$> P) st = table_step P st.
Proof.
  unfold table_step. rewrite length_fmap.
  rewrite (bool_decide_ext ((f <$> P) !! ti st <> (f <$> P) !! tj st)
             (P !! ti st <> P !! tj st)); [done|].
  by rewrite lookup_fmap_inj.
Qed.

Lemma makePartialMatchTable_fmap (P : list T) :
  makePartialMatchTable (f <$> P) = makePartialMatchTable P.
Proof.
  unfold makePartialMatchTable, table_fuel, table_init. rewrite length_fmap.
  by rewrite (run_ext _ (table_step P)) by apply table_step_fmap.
Qed.

Lemma scan_step_fmap (text P : list T) table st :
  scan_step (f <$> text) (f <$> P) table st = scan_step text P table st.
Proof.
  unfold scan_step. rewrite !length_fmap.
  rewrite (bool_decide_ext ((f <$> text) !! si st = (f <$> P) !! sj st)
             (text !! si st = P !! sj st)); [done|].
  apply lookup_fmap_inj.
Qed.

Lemma find_chars_fmap (text P : list T) :
  find_chars (f <$> text) (f <$> P) = find_chars text P.
Proof.
  unfold find_chars, scan_fuel. rewrite makePartialMatchTable_fmap, !length_fmap.
  destruct (makePartialMatchTable P) as [table| |]; simpl; try done.
  by rewrite (run_ext _ (scan_step text P table)) by (intros; apply scan_step_fmap).
Qed.

End Renaming.

(** ** Strings and code points *)

Lemma stringToChars_nil (str : jsstring) : stringToChars str = [] <-> str = [].
Proof.
  split; [|by intros ->].
  destruct str as [|u [|v rest]]; simpl; [done | |].
  - by destruct (is_high_surrogate u).
  - by destruct (is_high_surrogate u), (is_low_surrogate v).
Qed.

(** The elements are consecutive pieces of the string, in order. *)
Lemma stringToChars_concat (str : jsstring) : concat (stringToChars str) = str.
Proof.
  induction str as [str IH] using (induction_ltof1 _ length).
  unfold ltof in IH.
  destruct str as [|u [|v rest]]; simpl; [done | |].
  - by destruct (is_high_surrogate u).
  - destruct (is_high_surrogate u); [destruct (is_low_surrogate v)|]; simpl.
    + do 2 f_equal. apply IH. simpl. lia.
    + f_equal. apply (IH (v :: rest)). simpl. lia.
    + f_equal. apply (IH (v :: rest)). simpl. lia.
Qed.

Lemma utf16_char_inj : Inj (=) (=) utf16_char.
Proof.
  intros c c'. unfold utf16_char.
  destruct (N.ltb_spec c 0x10000), (N.ltb_spec c' 0x10000); intros Heq;
    try congruence.
  injection Heq as Hhi Hlo.
  pose proof (N.div_mod (c - 0x10000) 0x400) as Hc.
  pose proof (N.div_mod (c' - 0x10000) 0x400) as Hc'.
  assert (c - 0x10000 = c' - 0x10000)%N; [|lia].
  rewrite Hc, Hc' by done.
  replace ((c - 0x10000) / 0x400)%N with ((c' - 0x10000) / 0x400)%N by lia.
  replace ((c - 0x10000) mod 0x400)%N with ((c' - 0x10000) mod 0x400)%N by lia.
  done.
Qed.

Lemma stringToChars_utf16_char (c : N) (rest : jsstring) :
  scalar_value c ->
  stringToChars (utf16_char c ++ rest) = utf16_char c :: stringToChars rest.
Proof.
  intros [Hmax Hsur]. unfold utf16_char.
  destruct (N.ltb_spec c 0x10000) as [Hbmp|Hastral]; simpl.
  - assert (is_high_surrogate c = false) as ->; [|done].
    unfold is_high_surrogate. apply andb_false_iff.
    rewrite N.leb_gt, N.leb_gt. lia.
  - pose proof (N.mod_upper_bound (c - 0x10000) 0x400 ltac:(done)) as Hlo.
    assert ((c - 0x10000) / 0x400 < 0x400)%N as Hhi.
    { apply N.Div0.div_lt_upper_bound. lia. }
    remember ((c - 0x10000) / 0x400)%N as hi eqn:Ehi.
    remember ((c - 0x10000) mod 0x400)%N as lo eqn:Elo.
    clear Ehi Elo.
    assert (is_high_surrogate (0xD800 + hi) = true) as ->.
    { unfold is_high_surrogate. apply andb_true_iff. rewrite !N.leb_le. lia. }
    assert (is_low_surrogate (0xDC00 + lo) = true) as ->.
    { unfold is_low_surrogate. apply andb_true_iff. rewrite !N.leb_le. lia. }
    done.
Qed.

(** On a well-formed string the elements are the code points, one each. *)
Lemma stringToChars_utf16 (cps : list N) :
  Forall scalar_value cps -> stringToChars (utf16 cps) = utf16_char <$> cps.
Proof.
  induction 1 as [|c cps Hc _ IH]; [done|].
  change (utf16 (c :: cps)) with (utf16_char c ++ utf16 cps).
  rewrite stringToChars_utf16_char by done. by rewrite IH.
Qed.

(** ** The properties of the specification *)

Section TableProperties.
Context {T : Type} `{EqDecision T}.
Implicit Types (P : list T).

(** C3.  For every pattern [P] and every index [k < length P], entry [k] of
    [makePartialMatchTable P] is the length of the longest proper prefix of
    [P[0..=k]] that is also a proper suffix of it, as computed by the
    brute-force reference [lps_brute]. *)
Theorem makePartialMatchTable_longest_border P k :
  k < length P ->
  exists table, makePartialMatchTable P = Done table /\
                table !! k = Some (lps_brute (take (S k) P)).
Proof.
  intros Hk. assert (P <> []) as HP by (intros ->; simpl in Hk; lia).
  destruct (makePartialMatchTable_spec P HP) as (table & Htable & _ & Htab).
  exists table. split; [done|].
  destruct (Htab k Hk) as (v & Hv & Hspec). rewrite Hv. f_equal.
  apply (lps_spec_unique P (S k)); [done|]. apply lps_brute_prefix; lia.
Qed.

(** C4.  For every pattern [P] the table has the length of [P]; if [P] is
    not empty its entry 0 is 0; and every entry [table[k]] lies between 0
    and [k]. *)
Theorem makePartialMatchTable_shape P :
  exists table, makePartialMatchTable P = Done table /\
    length table = length P /\
    (P <> [] -> table !! 0 = Some 0) /\
    forall k v, table !! k = Some v -> 0 <= v <= k.
Proof.
  destruct (decide (P = [])) as [->|HP].
  - exists []. by rewrite makePartialMatchTable_nil.
  - destruct (makePartialMatchTable_spec P HP) as (table & Htable & Hlen & Htab).
    exists table. split; [done|]. split; [done|].
    assert (forall k v, table !! k = Some v -> 0 <= v <= k) as Hbound.
    { intros k v Hv. pose proof (lookup_lt_Some _ _ _ Hv) as Hk.
      destruct (Htab k) as (v' & Hv' & [[Hlt _] _]); [lia|].
      rewrite Hv in Hv'. injection Hv' as <-. lia. }
    split; [|done]. intros _.
    destruct (Htab 0) as (v & Hv & _).
    { destruct P; simpl; [done | lia]. }
    pose proof (Hbound 0 v Hv). by replace v with 0 in Hv by lia.
Qed.

(** C6.  [makePartialMatchTable] terminates on every pattern: it delivers a
    table, the same for every budget of at least [table_fuel P] steps; every
    turn of the loop lowers the variant [2 * (length - i) + j]; a turn that keeps [i] is
    the fall-back [j = table[j-1]] and strictly lowers [j]; and the loop is
    left with [i] at the pattern length (at its initial value 1 when the
    pattern is empty). *)
Theorem makePartialMatchTable_terminates P :
  (exists table, makePartialMatchTable P = Done table /\
     forall fuel, table_fuel P <= fuel ->
       (let! st := run (table_step P) fuel (table_init P) in Done (ttable st))
       = Done table) /\
  (forall st st', reach (table_step P) (table_init P) st ->
     table_step P st = Next st' ->
     table_measure P st' < table_measure P st /\
     (ti st' = ti st ->
      ttable st !! (tj st - 1) = Some (tj st') /\ tj st' < tj st)) /\
  (forall st st', reach (table_step P) (table_init P) st ->
     table_step P st = Exit st' -> ti st' = Nat.max 1 (length P)).
Proof.
  split; [|split].
  - destruct (decide (P = [])) as [->|HP].
    + exists []. split; [done|]. intros [|fuel] Hfuel; [|done].
      unfold table_fuel in Hfuel. simpl in Hfuel. lia.
    + destruct (table_loop_total P (table_fuel P) HP) as (st & Hrun & _); [done|].
      exists (ttable st). split.
      * unfold makePartialMatchTable. by rewrite Hrun.
      * intros fuel Hfuel. by rewrite (run_more_fuel _ _ _ _ _ Hrun Hfuel).
  - intros st st' Hreach Hstep.
    destruct (table_reach_inv P st Hreach) as [[-> ->]|Hinv]; [done|].
    pose proof (table_step_ok P st Hinv) as Hok. rewrite Hstep in Hok.
    destruct Hok as (_ & Hmu & Hj). split; [done|]. intros Hi.
    split; [|by apply Hj].
    unfold table_step in Hstep.
    destruct (ti st <? length P); [|done].
    destruct (bool_decide _).
    + destruct (tj st =? 0).
      * destruct (store _ _ _); [|done]. injection Hstep as <-. simpl in Hi. lia.
      * destruct (ttable st !! (tj st - 1)); [|done]. by injection Hstep as <-.
    + destruct (store _ _ _); [|done]. injection Hstep as <-. simpl in Hi. lia.
  - intros st st' Hreach Hstep.
    destruct (table_reach_inv P st Hreach) as [[-> ->]|Hinv].
    + by injection Hstep as <-.
    + pose proof (table_step_ok P st Hinv) as Hok. rewrite Hstep in Hok.
      destruct Hok as [-> Hi]. destruct Hinv as [[] _ _ _ _ _]. lia.
Qed.

End TableProperties.

(** C3, at the last slot of the keyword 'aabaaa'. *)
Lemma makePartialMatchTable_longest_border_aabaaa :
  exists table,
    makePartialMatchTable (stringToChars (js "aabaaa")) = Done table /\
    table !! 5 = Some (lps_brute (take 6 (stringToChars (js "aabaaa")))).
Proof.
  apply (makePartialMatchTable_longest_border (stringToChars (js "aabaaa")) 5).
  vm_compute. lia.
Defined.

(** C5.  The tables of the five keywords of the test suite. *)
Theorem makePartialMatchTable_examples :
  makePartialMatchTable (stringToChars (js "abaab")) = Done [0; 0; 1; 1; 2] /\
  makePartialMatchTable (stringToChars (js "aaaab")) = Done [0; 1; 2; 3; 0] /\
  makePartialMatchTable (stringToChars (js "aabaaa")) = Done [0; 1; 0; 1; 2; 2] /\
  makePartialMatchTable (stringToChars (js "abcdabd")) = Done [0; 0; 0; 0; 1; 2; 0] /\
  makePartialMatchTable (stringToChars (js "hello world")) = Done (replicate 11 0).
Proof. repeat split; vm_compute; reflexivity. Qed.

(** C7.  For every text, [find text ""] returns the sentinel -1 as an
    ordinary result: the table of the empty pattern is empty, the scan loop
    is left with [i] at the end of the text and [j] still 0 (no full match is
    reported), and the result is -1. *)
Theorem find_empty_pattern (testStr : jsstring) :
  makePartialMatchTable (stringToChars []) = Done [] /\
  (exists st, run (scan_step (stringToChars testStr) (stringToChars []) [])
                (scan_fuel (stringToChars testStr)) scan_init = Done st /\
              si st = length (stringToChars testStr) /\ sj st = 0) /\
  find testStr [] = Done (-1)%Z.
Proof.
  split; [done|]. split.
  - apply scan_loop_nil.
  - apply find_chars_nil.
Qed.

(** C8.  [stringToChars] yields one element per code point of a well-formed
    string, not one per UTF-16 code unit; [find] converts text and pattern
    alike, so the table and the position found are those of the two
    sequences of code points. *)
Theorem stringToChars_code_points (text pattern : list N) :
  Forall scalar_value text -> Forall scalar_value pattern ->
  stringToChars (utf16 text) = utf16_char <$> text /\
  length (stringToChars (utf16 text)) = length text /\
  makePartialMatchTable (stringToChars (utf16 pattern)) = makePartialMatchTable pattern /\
  find (utf16 text) (utf16 pattern) = find_chars text pattern.
Proof.
  intros Htext Hpattern.
  pose proof utf16_char_inj as Hinj.
  unfold find. rewrite !stringToChars_utf16 by done.
  split; [done|]. split; [by rewrite length_fmap|]. split.
  - apply makePartialMatchTable_fmap, _.
  - apply find_chars_fmap, _.
Qed.

(** C8, on a text and a pattern with characters outside the basic plane:
    U+1F600 takes two code units, and 'b' is found at position 2 of the
    four characters although it is code unit 4 of the six. *)
Lemma stringToChars_code_points_astral :
  let text := [0x1F600; 0x61; 0x62; 0x1F600]%N in
  let pattern := [0x62; 0x1F600]%N in
  stringToChars (utf16 text) = utf16_char <$> text /\
  length (stringToChars (utf16 text)) = length text /\
  makePartialMatchTable (stringToChars (utf16 pattern)) = makePartialMatchTable pattern /\
  find (utf16 text) (utf16 pattern) = find_chars text pattern.
Proof.
  apply (stringToChars_code_points [0x1F600; 0x61; 0x62; 0x1F600]%N [0x62; 0x1F600]%N);
    repeat constructor; unfold scalar_value; lia.
Defined.

(** C9.  For every text and every non-empty pattern [find] returns a
    result, and when it is a non-negative index [r] the pattern occurs in the
    text at [r] and at no smaller index. *)
Theorem find_positive_sound (testStr keywordStr : jsstring) :
  keywordStr <> [] ->
  exists r, find testStr keywordStr = Done r /\
    ((0 <= r)%Z ->
     occurs_at (stringToChars testStr) (stringToChars keywordStr) (Z.to_nat r) /\
     forall s, s < Z.to_nat r ->
       ~ occurs_at (stringToChars testStr) (stringToChars keywordStr) s).
Proof.
  intros Hkw.
  assert (stringToChars keywordStr <> []) as HP by (by rewrite stringToChars_nil).
  destruct (find_chars_spec (stringToChars testStr) (stringToChars keywordStr) HP)
    as (r & Hfind & [[-> _]|(s & -> & _ & Hocc & Hfirst)]).
  - exists (-1)%Z. split; [done|]. lia.
  - exists (Z.of_nat s). split; [done|]. intros _. by rewrite Nat2Z.id.
Qed.

(** C9, for the pattern 'abc' in the text 'xabcd'. *)
Lemma find_positive_sound_xabcd :
  exists r, find (js "xabcd") (js "abc") = Done r /\
    ((0 <= r)%Z ->
     occurs_at (stringToChars (js "xabcd")) (stringToChars (js "abc")) (Z.to_nat r) /\
     forall s, s < Z.to_nat r ->
       ~ occurs_at (stringToChars (js "xabcd")) (stringToChars (js "abc")) s).
Proof.
  apply (find_positive_sound (js "xabcd") (js "abc")). simpl. discriminate.
Defined.

(** C10.  For every text and every non-empty pattern no access is out of
    bounds.  At the head of the table loop with [i < length]: [i] is a slot
    of the table, [i] and [j] are positions of the pattern, [table[j-1]] is
    read only for [0 < j <= table length], and the turn does not get stuck.
    At the head of the scan loop with [i < testLength]: [i] is a position of
    the text, [j] a position of the pattern, [table[j-1]] is read only for
    [0 < j <= table length], and the turn does not get stuck.  Both methods
    deliver a result. *)
Theorem accesses_in_bounds (testStr keywordStr : jsstring) :
  keywordStr <> [] ->
  let testChars := stringToChars testStr in
  let keywordChars := stringToChars keywordStr in
  (forall st, reach (table_step keywordChars) (table_init keywordChars) st ->
     ti st < length keywordChars ->
     ti st < length (ttable st) /\
     is_Some (keywordChars !! ti st) /\ is_Some (keywordChars !! tj st) /\
     (0 < tj st ->
      tj st <= length (ttable st) /\ is_Some (ttable st !! (tj st - 1))) /\
     table_step keywordChars st <> Stuck) /\
  exists table, makePartialMatchTable keywordChars = Done table /\
  (forall st, reach (scan_step testChars keywordChars table) scan_init st ->
     si st < length testChars ->
     is_Some (testChars !! si st) /\ is_Some (keywordChars !! sj st) /\
     (0 < sj st -> sj st <= length table /\ is_Some (table !! (sj st - 1))) /\
     scan_step testChars keywordChars table st <> Stuck) /\
  exists r, find testStr keywordStr = Done r.
Proof.
  intros Hkw testChars keywordChars.
  assert (keywordChars <> []) as HP by (by unfold keywordChars; rewrite stringToChars_nil).
  split.
  - intros st Hreach Hi.
    destruct (table_reach_inv keywordChars st Hreach) as [[? _]|Hinv]; [done|].
    pose proof (table_step_ok _ _ Hinv) as Hstep.
    destruct Hinv as [Hib Hlen Hj _ _ _].
    split; [lia|]. split; [apply lookup_lt_is_Some; lia|].
    split; [apply lookup_lt_is_Some; lia|]. split.
    + intros Hpos. split; [lia|]. apply lookup_lt_is_Some. lia.
    + intros Hstuck. by rewrite Hstuck in Hstep.
  - destruct (makePartialMatchTable_spec keywordChars HP) as (table & Htable & Hok).
    exists table. split; [done|]. split.
    + intros st Hreach Hi.
      pose proof (scan_reach_inv testChars keywordChars table st HP Hok Hreach) as Hinv.
      pose proof (scan_step_ok _ _ _ _ Hok Hinv) as Hstep.
      destruct Hinv as [_ _ Hjm _ _]. destruct Hok as [Hlen _].
      split; [apply lookup_lt_is_Some; lia|].
      split; [apply lookup_lt_is_Some; lia|]. split.
      * intros Hpos. split; [lia|]. apply lookup_lt_is_Some. lia.
      * intros Hstuck. by rewrite Hstuck in Hstep.
    + destruct (find_chars_spec testChars keywordChars HP) as (r & Hfind & _).
      by exists r.
Qed.

(** C10, for the text and a keyword of the test suite. *)
Lemma accesses_in_bounds_abcdabd :
  exists r, find (js "ababbbabbbabaababaaabaaaaabababaabcdabdbabab") (js "abcdabd") = Done r.
Proof.
  assert (js "abcdabd" <> []) as Hkw by (simpl; discriminate).
  destruct (accesses_in_bounds (js "ababbbabbbabaababaaabaaaaabababaabcdabdbabab")
              (js "abcdabd") Hkw) as (_ & table & _ & _ & Hr).
  exact Hr.
Defined.

(** C1.  [find] does not agree with the brute-force search on every input:
    a keyword whose first occurrence ends at the last unit of the text is
    reported as absent.  'a' in 'a', and 'dbabab' in the text of the test
    suite, are found by the brute-force search and missed by [find]. *)
Theorem find_differs_from_naive_find :
  find (js "a") (js "a") = Done (-1)%Z /\
  naive_find (stringToChars (js "a")) (stringToChars (js "a")) = 0%Z /\
  find (js "ababbbabbbabaababaaabaaaaabababaabcdabdbabab") (js "dbabab") = Done (-1)%Z /\
  naive_find (stringToChars (js "ababbbabbbabaababaaabaaaaabababaabcdabdbabab"))
    (stringToChars (js "dbabab")) = 38%Z.
Proof. repeat split; vm_compute; reflexivity. Qed.

(** C2.  On the text 'abc' and the pattern 'abc' the scan loop is left by
    the [break] with [j] equal to the pattern length and [i = 3], so the
    match starts at [i - patternLength = 0]; [find] returns -1, because [i]
    also equals the text length. *)
Theorem find_full_match_at_end :
  makePartialMatchTable (stringToChars (js "abc")) = Done [0; 0; 0] /\
  run (scan_step (stringToChars (js "abc")) (stringToChars (js "abc")) [0; 0; 0])
      (scan_fuel (stringToChars (js "abc"))) scan_init = Done (SState 3 3) /\
  find (js "abc") (js "abc") = Done (-1)%Z.
Proof. repeat split; vm_compute; reflexivity. Qed.

(** ** Further properties of the table *)

Section TableMore.
Context {T : Type} `{EqDecision T}.
Implicit Types (P Q : list T).

(** Every table delivered has the length of the keyword and holds, slot by
    slot, the longest border of the prefix that ends there. *)
Lemma table_entries P :
  exists table, makePartialMatchTable P = Done table /\
    length table = length P /\
    forall k, k < length P -> exists v, table !! k = Some v /\ lps_spec P (S k) v.
Proof.
  destruct (decide (P = [])) as [->|HP].
  - exists []. rewrite makePartialMatchTable_nil. repeat split. simpl. intros; lia.
  - by apply makePartialMatchTable_spec.
Qed.

(** Borders of a prefix do not depend on what follows the prefix. *)
Lemma pre_border_app P Q i b :
  i <= length P -> pre_border (P ++ Q) i b <-> pre_border P i b.
Proof.
  intros Hi. unfold pre_border.
  split; intros [Hb Hov]; (split; [done|]); intros m Hm.
  - rewrite <- !(lookup_app_l P Q) by lia. by apply Hov.
  - rewrite !lookup_app_l by lia. by apply Hov.
Qed.

Lemma lps_spec_app P Q i v :
  i <= length P -> lps_spec (P ++ Q) i v <-> lps_spec P i v.
Proof.
  intros Hi. unfold lps_spec. rewrite pre_border_app by done.
  split; intros [Hb Hmax]; (split; [done|]); intros b Hbb; apply Hmax.
  - by apply (pre_border_app P Q i b Hi).
  - by apply (pre_border_app P Q i b Hi).
Qed.

(** X1.  An entry exceeds the entry before it by at most one: a border of a
    prefix, cut by one unit, is a border of the prefix before. *)
Theorem table_grows_by_one P :
  exists table, makePartialMatchTable P = Done table /\
    forall k v w, table !! k = Some v -> table !! (S k) = Some w -> w <= v + 1.
Proof.
  destruct (table_entries P) as (table & Htable & Hlen & Htab).
  exists table. split; [done|]. intros k v w Hv Hw.
  pose proof (lookup_lt_Some _ _ _ Hw) as Hk.
  destruct (Htab k) as (v' & Hv' & [_ Hmax]); [lia|].
  destruct (Htab (S k)) as (w' & Hw' & [Hb _]); [lia|].
  rewrite Hv in Hv'. injection Hv' as <-.
  rewrite Hw in Hw'. injection Hw' as <-.
  destruct w as [|b]; [lia|].
  apply pre_border_shrink in Hb. pose proof (Hmax b Hb). lia.
Qed.

(** X2.  The table of a prefix of a keyword is the prefix of the table of the
    keyword: the loop treats the first units the same way whatever follows. *)
Theorem table_of_prefix P Q :
  exists table, makePartialMatchTable (P ++ Q) = Done table /\
                makePartialMatchTable P = Done (take (length P) table).
Proof.
  destruct (table_entries (P ++ Q)) as (table & Htable & Hlen & Htab).
  destruct (table_entries P) as (tableP & HtableP & HlenP & HtabP).
  exists table. split; [done|]. rewrite HtableP. f_equal.
  rewrite length_app in Hlen, Htab.
  apply list_eq. intros k. destruct (decide (k < length P)) as [Hk|Hk].
  - rewrite lookup_take_lt by done.
    destruct (HtabP k Hk) as (v & -> & Hv).
    destruct (Htab k) as (v' & -> & Hv'); [lia|].
    f_equal. apply (lps_spec_unique P (S k)); [done|].
    by apply (lps_spec_app P Q); [lia|].
  - rewrite lookup_take_ge by lia. apply lookup_ge_None. lia.
Qed.

(** X3.  The table is all zeros exactly when the first unit of the keyword occurs
    nowhere else in it. *)
Theorem table_zero_iff (x : T) (rest : list T) :
  makePartialMatchTable (x :: rest) = Done (replicate (S (length rest)) 0)
  <-> x ∉ rest.
Proof.
  destruct (table_entries (x :: rest)) as (table & Htable & Hlen & Htab).
  rewrite Htable. simpl in Hlen, Htab. split.
  - intros Heq Hin. injection Heq as ->.
    apply list_elem_of_lookup in Hin as [k Hk].
    pose proof (lookup_lt_Some _ _ _ Hk) as Hlt.
    destruct (Htab (S k)) as (v & Hv & [_ Hmax]); [lia|].
    apply (lookup_replicate_1 (S (length rest))) in Hv as [-> _].
    assert (1 <= 0); [|lia]. apply Hmax. split; [lia|].
    intros m Hm. assert (m = 0) as -> by lia.
    replace (S (S k) - 1 + 0) with (S k) by lia. symmetry. exact Hk.
  - intros Hnin. f_equal. apply list_eq. intros k.
    destruct (decide (k < S (length rest))) as [Hk|Hk].
    + rewrite lookup_replicate_2 by done.
      destruct (Htab k Hk) as (v & -> & [[Hb Hov] _]). f_equal.
      destruct v as [|v]; [done|]. exfalso. apply Hnin.
      specialize (Hov 0 ltac:(lia)).
      replace (S k - S v + 0) with (S (k - S v)) in Hov by lia.
      simpl in Hov. apply list_elem_of_lookup. by exists (k - S v).
    + rewrite lookup_ge_None_2 by lia. symmetry.
      apply lookup_replicate_None. lia.
Qed.

(** X4.  A keyword of [n] equal units has the table 0, 1, ..., n-1. *)
Theorem table_of_repeated_unit (x : T) (n : nat) :
  makePartialMatchTable (replicate n x) = Done (seq 0 n).
Proof.
  destruct (table_entries (replicate n x)) as (table & Htable & Hlen & Htab).
  rewrite Htable. f_equal. rewrite length_replicate in Hlen, Htab.
  apply list_eq. intros k. destruct (decide (k < n)) as [Hk|Hk].
  - rewrite lookup_seq_lt by done.
    destruct (Htab k Hk) as (v & -> & [[Hb _] Hmax]). f_equal.
    assert (k <= v); [|simpl; lia]. apply Hmax. split; [lia|].
    intros m Hm. by rewrite !lookup_replicate_2 by lia.
  - rewrite lookup_ge_None_2 by lia. symmetry.
    apply lookup_ge_None. rewrite length_seq. lia.
Qed.

End TableMore.

(** ** Further properties of the scanner *)

Section ScanMore.
Context {T : Type} `{EqDecision T}.
Implicit Types (text P rest : list T).

(** The brute-force search returns the first position where the keyword
    occurs, or -1 when it occurs nowhere. *)
Lemma naive_from_spec text P s0 :
  (naive_from text P s0 = (-1)%Z /\ forall s, ~ occurs_at text P s) \/
  (exists s, naive_from text P s0 = Z.of_nat (s0 + s) /\ occurs_at text P s /\
             forall s', s' < s -> ~ occurs_at text P s').
Proof.
  revert s0. induction text as [|a text IH]; intros s0; simpl; case_bool_decide as Hhd.
  - right. exists 0. rewrite Nat.add_0_r. repeat split; [done|]. intros; lia.
  - left. split; [done|]. intros s. unfold occurs_at.
    by rewrite drop_nil.
  - right. exists 0. rewrite Nat.add_0_r. repeat split; [done|]. intros; lia.
  - destruct (IH (S s0)) as [[Hr Hnone]|(s & Hr & Hocc & Hfirst)].
    + left. split; [done|]. intros [|s]; [done|]. apply Hnone.
    + right. exists (S s). split; [rewrite Hr; f_equal; lia|]. split; [done|].
      intros [|s'] Hs'; [done|]. apply Hfirst. lia.
Qed.

(** For a non-empty keyword [find_chars] and the brute-force search agree
    except on a first occurrence that ends at the last unit of the text. *)
Lemma find_chars_naive text P :
  P <> [] ->
  find_chars text P =
  Done (if (naive_find text P + Z.of_nat (length P) <? Z.of_nat (length text))%Z
        then naive_find text P else (-1)%Z).
Proof.
  intros HP.
  destruct (find_chars_spec text P HP) as (r & -> & Hr). f_equal.
  unfold naive_find.
  destruct (naive_from_spec text P 0) as [[-> Hnone]|(s & -> & Hocc & Hfirst)];
    simpl Nat.add.
  - destruct Hr as [[-> _]|(s & _ & _ & Hocc & _)]; [|by destruct (Hnone s)].
    by destruct (_ <? _)%Z.
  - destruct Hr as [[-> Hnone]|(s' & -> & Hfit & Hocc' & Hfirst')].
    + destruct (Z.ltb_spec (Z.of_nat s + Z.of_nat (length P)) (Z.of_nat (length text)))
        as [Hlt|Hge]; [|done].
      destruct (Hnone s); [lia | done].
    + assert (s' = s) as ->.
      { destruct (Nat.lt_trichotomy s' s) as [Hlt|[Heq|Hgt]]; [|done|].
        - by destruct (Hfirst s').
        - by destruct (Hfirst' s). }
      destruct (Z.ltb_spec (Z.of_nat s + Z.of_nat (length P)) (Z.of_nat (length text)));
        [done | lia].
Qed.

(** X8.  A keyword followed by at least one more unit is found at position 0. *)
Theorem find_chars_at_start P rest :
  P <> [] -> rest <> [] -> find_chars (P ++ rest) P = Done 0%Z.
Proof.
  intros HP Hrest.
  destruct (find_chars_spec (P ++ rest) P HP)
    as (r & -> & [[-> Hnone]|(s & -> & _ & _ & Hfirst)]).
  - destruct (Hnone 0).
    + rewrite length_app. destruct rest; simpl; [done | lia].
    + unfold occurs_at. by rewrite drop_0, take_app_length.
  - destruct s as [|s]; [done|]. destruct (Hfirst 0); [lia|].
    unfold occurs_at. by rewrite drop_0, take_app_length.
Qed.

(** A keyword with at least as many units as the text is never found, not
    even when it equals the text. *)
Lemma find_chars_long_keyword text P :
  length text <= length P -> find_chars text P = Done (-1)%Z.
Proof.
  intros Hlen. destruct (decide (P = [])) as [->|HP]; [apply find_chars_nil|].
  destruct (find_chars_spec text P HP) as (r & -> & [[-> _]|(s & _ & Hfit & _)]);
    [done | lia].
Qed.

(** One turn of the scan loop for the empty keyword. *)
Lemma scan_step_nil_ok text (st : sstate) :
  sj st = 0 /\ si st <= length text ->
  match scan_step text [] [] st with
  | Next st' => (sj st' = 0 /\ si st' <= length text) /\
                scan_measure text st' < scan_measure text st
  | Exit st' => si st' = length text /\ sj st' = 0
  | Stuck => False
  end.
Proof.
  intros [Hj Hi]. unfold scan_step, scan_measure.
  destruct (Nat.ltb_spec (si st) (length text)) as [Hlt|Hge]; [|lia].
  rewrite Hj. simpl.
  destruct (lookup_lt_is_Some_2 text (si st) Hlt) as [x Hx]. rewrite Hx.
  rewrite bool_decide_eq_false_2 by done. simpl. lia.
Qed.

(** X9.  The scan loop ends for every text and keyword, empty or not: every
    budget of at least [scan_fuel text] steps ends in the same state, every
    turn lowers the variant [2 * (testLength - i) + j], and the loop is left
    with [i <= testLength], either at the end of the text or by the [break]
    with [j] at the keyword length. *)
Theorem scan_terminates text P :
  exists table, makePartialMatchTable P = Done table /\
    (exists st, forall fuel, scan_fuel text <= fuel ->
       run (scan_step text P table) fuel scan_init = Done st) /\
    (forall st st', reach (scan_step text P table) scan_init st ->
       scan_step text P table st = Next st' ->
       scan_measure text st' < scan_measure text st) /\
    (forall st st', reach (scan_step text P table) scan_init st ->
       scan_step text P table st = Exit st' ->
       si st' <= length text /\ (si st' = length text \/ sj st' = length P)).
Proof.
  destruct (decide (P = [])) as [->|HP].
  - exists []. split; [done|].
    assert (forall st, reach (scan_step text [] []) scan_init st ->
                       sj st = 0 /\ si st <= length text) as Hreach.
    { intros st.
      apply (reach_inv (scan_step text [] [])
               (fun st => sj st = 0 /\ si st <= length text)
               (fun st => si st = length text /\ sj st = 0) (scan_measure text)).
      - apply scan_step_nil_ok.
      - simpl. lia. }
    split; [|split].
    + destruct (scan_loop_nil text) as (st & Hrun & _). exists st.
      intros fuel Hfuel. by apply (run_more_fuel _ _ _ _ _ Hrun).
    + intros st st' Hst Hstep.
      pose proof (scan_step_nil_ok text st (Hreach st Hst)) as Hok.
      rewrite Hstep in Hok. tauto.
    + intros st st' Hst Hstep.
      pose proof (scan_step_nil_ok text st (Hreach st Hst)) as Hok.
      rewrite Hstep in Hok. lia.
  - destruct (makePartialMatchTable_spec P HP) as (table & Htable & Hok).
    exists table. split; [done|]. split; [|split].
    + destruct (scan_loop_total text P table (scan_fuel text) HP Hok) as (st & Hrun & _);
        [done|].
      exists st. intros fuel Hfuel. by apply (run_more_fuel _ _ _ _ _ Hrun).
    + intros st st' Hst Hstep.
      pose proof (scan_step_ok text P table st Hok
                    (scan_reach_inv text P table st HP Hok Hst)) as Hstp.
      rewrite Hstep in Hstp. tauto.
    + intros st st' Hst Hstep.
      pose proof (scan_step_ok text P table st Hok
                    (scan_reach_inv text P table st HP Hok Hst)) as Hstp.
      rewrite Hstep in Hstp. destruct Hstp as [[-> _]|(-> & [_ Hi] & _)]; lia.
Qed.

End ScanMore.

(** [find_chars_at_start], for the keyword 'abc' in the text 'abcd'. *)
Lemma find_chars_at_start_abcd :
  find_chars (stringToChars (js "abc") ++ stringToChars (js "d"))
    (stringToChars (js "abc")) = Done 0%Z.
Proof.
  apply (find_chars_at_start (stringToChars (js "abc")) (stringToChars (js "d")));
    simpl; discriminate.
Defined.

(** ** Further properties of [find] and [stringToChars] *)

(** X5.  For a non-empty keyword [find] returns what the brute-force search over
    the characters returns, except that a first occurrence that ends at the
    last character of the text is reported as -1. *)
Theorem find_naive (testStr keywordStr : jsstring) :
  keywordStr <> [] ->
  let testChars := stringToChars testStr in
  let keywordChars := stringToChars keywordStr in
  find testStr keywordStr =
  Done (if (naive_find testChars keywordChars + Z.of_nat (length keywordChars)
            <? Z.of_nat (length testChars))%Z
        then naive_find testChars keywordChars else (-1)%Z).
Proof.
  intros Hkw testChars keywordChars. apply find_chars_naive.
  unfold keywordChars. by rewrite stringToChars_nil.
Qed.

(** [find_naive], for the keyword 'abc' in the text 'xabcd'. *)
Lemma find_naive_xabcd :
  find (js "xabcd") (js "abc") =
  Done (if (naive_find (stringToChars (js "xabcd")) (stringToChars (js "abc"))
            + Z.of_nat (length (stringToChars (js "abc")))
            <? Z.of_nat (length (stringToChars (js "xabcd"))))%Z
        then naive_find (stringToChars (js "xabcd")) (stringToChars (js "abc"))
        else (-1)%Z).
Proof.
  apply (find_naive (js "xabcd") (js "abc")). simpl. discriminate.
Defined.

(** X6.  A keyword with at least as many characters as the text is reported as
    absent, whatever the two strings are. *)
Theorem find_long_keyword (testStr keywordStr : jsstring) :
  length (stringToChars testStr) <= length (stringToChars keywordStr) ->
  find testStr keywordStr = Done (-1)%Z.
Proof. apply find_chars_long_keyword. Qed.

(** [find_long_keyword], for the keyword 'abc' in the text 'ab'. *)
Lemma find_long_keyword_ab : find (js "ab") (js "abc") = Done (-1)%Z.
Proof.
  apply (find_long_keyword (js "ab") (js "abc")). vm_compute. lia.
Defined.

(** X7.  [find] delivers a result on every pair of strings, and the result is -1
    or the index of a match that ends before the last character of the
    text. *)
Theorem find_range (testStr keywordStr : jsstring) :
  exists r, find testStr keywordStr = Done r /\
    (r = (-1)%Z \/
     (0 <= r /\
      r + Z.of_nat (length (stringToChars keywordStr))
      < Z.of_nat (length (stringToChars testStr)))%Z).
Proof.
  unfold find. destruct (decide (stringToChars keywordStr = [])) as [->|HP].
  - exists (-1)%Z. split; [apply find_chars_nil | by left].
  - destruct (find_chars_spec (stringToChars testStr) (stringToChars keywordStr) HP)
      as (r & -> & [[-> _]|(s & -> & Hfit & _)]).
    + exists (-1)%Z. split; [done | by left].
    + exists (Z.of_nat s). split; [done|]. right. lia.
Qed.

(** X10.  Neither method looks inside a unit: an injective renaming of the units
    changes neither the table nor the result of the search. *)
Theorem renaming_invariance {T U : Type} `{EqDecision T} `{EqDecision U}
    (f : T -> U) `{!Inj (=) (=) f} (text P : list T) :
  makePartialMatchTable (f <$> P) = makePartialMatchTable P /\
  find_chars (f <$> text) (f <$> P) = find_chars text P.
Proof.
  split; [by apply makePartialMatchTable_fmap | by apply find_chars_fmap].
Qed.

(** [renaming_invariance], for the successor on numbers. *)
Lemma renaming_invariance_succ :
  makePartialMatchTable (S <$> [1; 2; 1; 1; 2]) = makePartialMatchTable [1; 2; 1; 1; 2] /\
  find_chars (S <$> [3; 1; 2; 1; 1; 2; 3]) (S <$> [1; 2; 1; 1; 2])
  = find_chars [3; 1; 2; 1; 1; 2; 3] [1; 2; 1; 1; 2].
Proof.
  apply (renaming_invariance S [3; 1; 2; 1; 1; 2; 3] [1; 2; 1; 1; 2]).
Defined.

(** X11.  The elements of [stringToChars str], joined, are [str] again; each is a
    single code unit or a high surrogate followed by a low surrogate; so
    there are at most as many elements as code units. *)
Theorem stringToChars_pieces (str : jsstring) :
  concat (stringToChars str) = str /\
  Forall (fun c => (exists u, c = [u]) \/
                   (exists u v, c = [u; v] /\ is_high_surrogate u = true /\
                                is_low_surrogate v = true))
         (stringToChars str) /\
  length (stringToChars str) <= length str.
Proof.
  split; [apply stringToChars_concat|].
  induction str as [str IH] using (induction_ltof1 _ length). unfold ltof in IH.
  destruct str as [|u [|v rest]]; simpl.
  - split; [constructor | lia].
  - destruct (is_high_surrogate u); (split; [|simpl; lia]);
      (constructor; [left; by exists u | constructor]).
  - destruct (is_high_surrogate u) eqn:Hu; [destruct (is_low_surrogate v) eqn:Hv|].
    + destruct (IH rest) as [Hall Hlen]; [simpl; lia|]. split; [|simpl; lia].
      constructor; [|done]. right. by exists u, v.
    + destruct (IH (v :: rest)) as [Hall Hlen]; [simpl; lia|]. split; [|simpl in *; lia].
      constructor; [|done]. left. by exists u.
    + destruct (IH (v :: rest)) as [Hall Hlen]; [simpl; lia|]. split; [|simpl in *; lia].
      constructor; [|done]. left. by exists u.
Qed.

Lemma stringToChars_cons2 (u v : N) (rest : jsstring) :
  stringToChars (u :: v :: rest) =
  if is_high_surrogate u then
    if is_low_surrogate v then [u; v] :: stringToChars rest
    else [u] :: stringToChars (v :: rest)
  else [u] :: stringToChars (v :: rest).
Proof. reflexivity. Qed.

Lemma stringToChars_cons1 (u : N) (rest : jsstring) :
  is_high_surrogate u = false -> stringToChars (u :: rest) = [u] :: stringToChars rest.
Proof. intros Hu. destruct rest; cbn [stringToChars]; by rewrite Hu. Qed.

(** X12.  Splitting commutes with concatenation unless the cut separates a high
    surrogate from what follows it. *)
Theorem stringToChars_app (s1 s2 : jsstring) :
  (forall u, last s1 = Some u -> is_high_surrogate u = false) ->
  stringToChars (s1 ++ s2) = stringToChars s1 ++ stringToChars s2.
Proof.
  induction s1 as [s1 IH] using (induction_ltof1 _ length). unfold ltof in IH.
  intros Hlast. destruct s1 as [|u [|v rest]].
  - done.
  - pose proof (Hlast u eq_refl) as Hu.
    change ([u] ++ s2) with (u :: s2). by rewrite !stringToChars_cons1.
  - assert (stringToChars (v :: rest ++ s2)
            = stringToChars (v :: rest) ++ stringToChars s2) as Hvr.
    { apply (IH (v :: rest)); [simpl; lia|]. intros w Hw. apply Hlast.
      by rewrite last_cons_cons. }
    assert (stringToChars (rest ++ s2)
            = stringToChars rest ++ stringToChars s2) as Hr.
    { apply IH; [simpl; lia|]. intros w Hw. apply Hlast.
      rewrite last_cons_cons. destruct rest; [done|]. by rewrite last_cons_cons. }
    change ((u :: v :: rest) ++ s2) with (u :: v :: (rest ++ s2)).
    rewrite !stringToChars_cons2.
    destruct (is_high_surrogate u); [destruct (is_low_surrogate v)|].
    + by rewrite Hr.
    + by rewrite Hvr.
    + by rewrite Hvr.
Qed.

(** [stringToChars_app], for 'ab' followed by the two code units of U+1F600. *)
Lemma stringToChars_app_ab_astral :
  stringToChars (js "ab" ++ [0xD83D; 0xDE00]%N)
  = stringToChars (js "ab") ++ stringToChars [0xD83D; 0xDE00]%N.
Proof.
  apply (stringToChars_app (js "ab") [0xD83D; 0xDE00]%N).
  intros u Hu. vm_compute in Hu. injection Hu as <-. reflexivity.
Defined.

Lemma stringToChars_units (str : jsstring) :
  Forall (fun u => is_high_surrogate u = false) str ->
  stringToChars str = (fun u => [u]) <$> str.
Proof.
  induction 1 as [|u str Hu _ IH]; [done|].
  rewrite stringToChars_cons1 by done. by rewrite IH.
Qed.

(** X13.  On strings without high surrogates (ASCII text, for one) every code unit
    is an element of its own, and [find] is the search over the code units:
    its positions are positions in the strings. *)
Theorem find_on_code_units (testStr keywordStr : jsstring) :
  Forall (fun u => is_high_surrogate u = false) testStr ->
  Forall (fun u => is_high_surrogate u = false) keywordStr ->
  length (stringToChars testStr) = length testStr /\
  makePartialMatchTable (stringToChars keywordStr) = makePartialMatchTable keywordStr /\
  find testStr keywordStr = find_chars testStr keywordStr.
Proof.
  intros Htest Hkw.
  assert (Inj (=) (=) (fun u : N => [u])) as Hinj by (intros x y Hxy; by injection Hxy).
  unfold find. rewrite !stringToChars_units by done.
  split; [by rewrite length_fmap|]. split.
  - by apply makePartialMatchTable_fmap.
  - by apply find_chars_fmap.
Qed.

(** [find_on_code_units], for the keyword 'abc' in the text 'xabcd'. *)
Lemma find_on_code_units_xabcd :
  length (stringToChars (js "xabcd")) = length (js "xabcd") /\
  makePartialMatchTable (stringToChars (js "abc")) = makePartialMatchTable (js "abc") /\
  find (js "xabcd") (js "abc") = find_chars (js "xabcd") (js "abc").
Proof.
  apply (find_on_code_units (js "xabcd") (js "abc")); repeat constructor.
Defined.

(** ** Longer texts *)

Section ScanExtend.
Context {T : Type} `{EqDecision T}.
Implicit Types (text more P : list T).

(** An occurrence that fits in the text is not affected by what follows the
    text. *)
Lemma occurs_at_app_l text more P s :
  s + length P <= length text ->
  occurs_at (text ++ more) P s <-> occurs_at text P s.
Proof.
  intros Hfit. unfold occurs_at.
  rewrite drop_app_le by lia. rewrite take_app_le; [done|].
  rewrite length_drop. lia.
Qed.

Lemma occurs_at_fits text P s :
  P <> [] -> occurs_at text P s -> s + length P <= length text.
Proof.
  intros HP Hocc. apply match_at_fits; [done|]. by apply occurs_at_lookup.
Qed.

(** X14.  A position found stays the position found when the text is continued. *)
Theorem find_chars_extend text more P s :
  find_chars text P = Done (Z.of_nat s) ->
  find_chars (text ++ more) P = Done (Z.of_nat s).
Proof.
  intros Hfind. destruct (decide (P = [])) as [->|HP].
  { rewrite find_chars_nil in Hfind. injection Hfind. lia. }
  destruct (find_chars_spec text P HP)
    as (r & Hr & [[-> _]|(s0 & -> & Hfit & Hocc & Hfirst)]);
    rewrite Hr in Hfind; injection Hfind as Hs; [lia|].
  apply Nat2Z.inj in Hs as ->.
  assert (occurs_at (text ++ more) P s) as Hocc'
    by (apply occurs_at_app_l; [lia | done]).
  destruct (find_chars_spec (text ++ more) P HP)
    as (r & -> & [[-> Hnone]|(s1 & -> & _ & Hocc1 & Hfirst1)]).
  - destruct (Hnone s); [rewrite length_app; lia | done].
  - do 2 f_equal.
    destruct (Nat.lt_trichotomy s1 s) as [Hlt|[Heq|Hgt]]; [|done|].
    + destruct (Hfirst s1 Hlt). apply (occurs_at_app_l text more); [lia | done].
    + by destruct (Hfirst1 s).
Qed.

(** X15.  With one more unit after the text, whatever it is, [find_chars] returns
    for a non-empty keyword what the brute-force search returns on the text
    itself. *)
Theorem find_chars_sentinel text P (x : T) :
  P <> [] -> find_chars (text ++ [x]) P = Done (naive_find text P).
Proof.
  intros HP. unfold naive_find.
  destruct (find_chars_spec (text ++ [x]) P HP) as (r & -> & Hr). f_equal.
  rewrite length_app in Hr. simpl in Hr.
  destruct (naive_from_spec text P 0) as [[-> Hnone]|(s & -> & Hocc & Hfirst)];
    simpl Nat.add.
  - destruct Hr as [[-> _]|(s & _ & Hfit & Hocc & _)]; [done|].
    destruct (Hnone s). apply (occurs_at_app_l text [x]); [lia | done].
  - pose proof (occurs_at_fits text P s HP Hocc) as Hfit.
    destruct Hr as [[-> Hnone]|(s1 & -> & Hfit1 & Hocc1 & Hfirst1)].
    + destruct (Hnone s); [lia|]. by apply occurs_at_app_l.
    + f_equal.
      destruct (Nat.lt_trichotomy s1 s) as [Hlt|[Heq|Hgt]]; [|done|].
      * destruct (Hfirst s1 Hlt). apply (occurs_at_app_l text [x]); [lia | done].
      * destruct (Hfirst1 s Hgt). by apply occurs_at_app_l.
Qed.

End ScanExtend.

(** [find_chars_extend], for 'abc' found at 1 in 'xabcd', continued by 'abc'. *)
Lemma find_chars_extend_xabcd :
  find_chars (js "xabcd" ++ js "abc") (js "abc") = Done (Z.of_nat 1).
Proof.
  apply (find_chars_extend (js "xabcd") (js "abc") (js "abc") 1).
  vm_compute. reflexivity.
Defined.

(** [find_chars_sentinel], for the keyword 'abc' at the end of 'xabc'. *)
Lemma find_chars_sentinel_xabc :
  find_chars (js "xabc" ++ [0%N]) (js "abc") = Done (naive_find (js "xabc") (js "abc")).
Proof.
  apply (find_chars_sentinel (js "xabc") (js "abc") 0%N). simpl. discriminate.
Defined.
